(** * Black-Scholes pricing library ([src/index.js])

    A shallow embedding of the four arrow functions of [src/index.js],
    [normCdf], [blackScholesCall], [blackScholesPut] and
    [blackScholesWarrantCall], and of the module's export statements.

    The functions are embedded twice, expression by expression:

    - over the real numbers (the top-level definitions): a JavaScript number
      is an [R], [Math.log] is [ln], [Math.exp] is [exp], [Math.sqrt] is
      [sqrt] and [Math.pow(x, 2)] is [x ^ 2].  This is the reading under which
      the pricing identities are stated; it says nothing about rounding.
    - over numbers extended with the IEEE 754 special values (modules
      [JSNumber] and [IEEE]): a number is a finite real, [+Infinity],
      [-Infinity] or [NaN], and the operators follow the IEEE rules for
      those values (division by zero, [Infinity - Infinity],
      [0 * Infinity], ...).  Finite arithmetic stays
      exact and zero is unsigned (it divides like [+0]).

    The error function [erf] is imported from [mathjs]; it is not part of the
    repository and is a parameter of every definition.  A trailing parameter
    with a default value ([mu = 0], [sigma = 1], [d = 0], [q = 1]) is an
    [option]: [None] is the omitted argument. *)

From Stdlib Require Import Reals Lra List String Classical.
Import ListNotations.
Local Open Scope R_scope.

(** ** The source functions over the reals *)

(** A JavaScript default parameter: the default stands in for a missing
    argument. *)
Definition dflt {A : Type} (v : A) (arg : option A) : A :=
  match arg with
  | Some a => a
  | None => v
  end.

Section Pricing.

Variable erf : R -> R.

(** [const normCdf = (x, mu = 0, sigma = 1) =>
      0.5 * (1 - erf((mu - x) / (Math.sqrt(2) * sigma)));] *)
Definition normCdf (x : R) (mu sigma : option R) : R :=
  let mu := dflt 0 mu in
  let sigma := dflt 1 sigma in
  0.5 * (1 - erf ((mu - x) / (sqrt 2 * sigma))).

(** [const blackScholesCall = (S, K, sigma, r, t, d = 0) => { ... }] *)
Definition blackScholesCall (S K sigma r t : R) (d : option R) : R :=
  let d := dflt 0 d in
  let d1 :=
    (ln (S / K) + (r - d + sigma ^ 2 / 2) * t) / (sigma * sqrt t) in
  let d2 := d1 - sigma * sqrt t in
  S * exp (- d * t) * normCdf d1 None None
  - K * exp (- r * t) * normCdf d2 None None.

(** [const blackScholesPut = (S, K, sigma, r, t, d = 0) => { ... }] *)
Definition blackScholesPut (S K sigma r t : R) (d : option R) : R :=
  let d := dflt 0 d in
  let d1 :=
    (ln (S / K) + (r - d + sigma ^ 2 / 2) * t) / (sigma * sqrt t) in
  let d2 := d1 - sigma * sqrt t in
  K * exp (- r * t) * normCdf (- d2) None None
  - S * exp (- d * t) * normCdf (- d1) None None.

(** [const blackScholesWarrantCall = (S, K, sigma, r, t, q = 1) => { ... }] *)
Definition blackScholesWarrantCall (S K sigma r t : R) (q : option R) : R :=
  let q := dflt 1 q in
  let d1 :=
    (ln (S / K) + (r + sigma ^ 2 / 2) * t) / (sigma * sqrt t) in
  let d2 := d1 - sigma * sqrt t in
  (S * normCdf d1 None None - K * exp (- r * t) * normCdf d2 None None) / q.

End Pricing.

(** ** The module's bindings and exports *)

(** The four [const] bindings of the module. *)
Inductive binding : Type :=
| NormCdf
| BlackScholesCall
| BlackScholesPut
| BlackScholesWarrantCall.

(** The identifier each binding is declared under. *)
Definition binding_name (b : binding) : string :=
  match b with
  | NormCdf => "normCdf"
  | BlackScholesCall => "blackScholesCall"
  | BlackScholesPut => "blackScholesPut"
  | BlackScholesWarrantCall => "blackScholesWarrantCall"
  end.

Definition bindings : list binding :=
  [NormCdf; BlackScholesCall; BlackScholesPut; BlackScholesWarrantCall].

(** [export { blackScholesCall, blackScholesPut, blackScholesWarrantCall };] *)
Definition named_exports : list binding :=
  [BlackScholesCall; BlackScholesPut; BlackScholesWarrantCall].

(** [export default blackScholesCall;] *)
Definition default_export : binding := BlackScholesCall.

(** The names an importer can reach: the named exports and ["default"]. *)
Definition exported_names : list string :=
  map binding_name named_exports ++ ["default"%string].

(** A function is exposed under a name when an importer can reach it by that
    name. *)
Definition exposes (name : string) : Prop := In name exported_names.

(** ** The textbook formulas, as the specification writes them *)

(** The standard normal CDF, computed by [normCdf] with its defaults. *)
Definition Phi (erf : R -> R) (x : R) : R := normCdf erf x None None.

(** d1 = (ln(S/K) + (r - d + sigma^2/2) t) / (sigma sqrt t). *)
Definition spec_d1 (S K sigma r t d : R) : R :=
  (ln (S / K) + (r - d + Rsqr sigma / 2) * t) / (sigma * sqrt t).

(** d2 = d1 - sigma sqrt t. *)
Definition spec_d2 (S K sigma r t d : R) : R :=
  spec_d1 S K sigma r t d - sigma * sqrt t.

(** price = S e^(-d t) Phi(d1) - K e^(-r t) Phi(d2). *)
Definition spec_call (erf : R -> R) (S K sigma r t d : R) : R :=
  S * exp (- (d * t)) * Phi erf (spec_d1 S K sigma r t d)
  - K * exp (- (r * t)) * Phi erf (spec_d2 S K sigma r t d).

(** price = K e^(-r t) Phi(-d2) - S e^(-d t) Phi(-d1). *)
Definition spec_put (erf : R -> R) (S K sigma r t d : R) : R :=
  K * exp (- (r * t)) * Phi erf (- spec_d2 S K sigma r t d)
  - S * exp (- (d * t)) * Phi erf (- spec_d1 S K sigma r t d).

(** The warrant's d1 = (ln(S/K) + (r + sigma^2/2) t) / (sigma sqrt t). *)
Definition spec_warrant_d1 (S K sigma r t : R) : R :=
  (ln (S / K) + (r + Rsqr sigma / 2) * t) / (sigma * sqrt t).

(** The warrant's d2 = d1 - sigma sqrt t. *)
Definition spec_warrant_d2 (S K sigma r t : R) : R :=
  spec_warrant_d1 S K sigma r t - sigma * sqrt t.

(** price = (S Phi(d1) - K e^(-r t) Phi(d2)) / q. *)
Definition spec_warrant (erf : R -> R) (S K sigma r t q : R) : R :=
  (S * Phi erf (spec_warrant_d1 S K sigma r t)
   - K * exp (- (r * t)) * Phi erf (spec_warrant_d2 S K sigma r t)) / q.

(** ** What the pricing identities ask of [erf] *)

(** [erf] is an odd function. *)
Definition odd (erf : R -> R) : Prop := forall x, erf (- x) = - erf x.

(** [erf] is a primitive of [c * exp (- x^2)]. *)
Definition gaussian_primitive (erf : R -> R) (c : R) : Prop :=
  forall x, derivable_pt_lim erf x (c * exp (- (x * x))).

(** [erf] tends to 1 at +infinity. *)
Definition tends_to_one (erf : R -> R) : Prop :=
  forall eps, 0 < eps -> exists M, forall x, M <= x -> Rabs (erf x - 1) < eps.

(** The standard normal CDF over the Gaussian density, up to a constant:
    the function whose monotonicity bounds the call price from below. *)
Definition mills (erf : R -> R) (x : R) : R :=
  normCdf erf x None None * exp (x * x / 2).

(** ** Numbers with the IEEE special values *)

Module JSNumber.

(** A JavaScript number: a finite value, [+Infinity], [-Infinity] or [NaN]. *)
Inductive number : Type :=
| Fin (x : R)
| PInf
| NInf
| NaN.

(** [pos], [neg] or [zero] by the sign of a finite value. *)
Definition by_sign (x : R) (pos neg zero : number) : number :=
  if Rlt_dec 0 x then pos else if Rlt_dec x 0 then neg else zero.

(** Unary minus. *)
Definition neg (a : number) : number :=
  match a with
  | Fin x => Fin (- x)
  | PInf => NInf
  | NInf => PInf
  | NaN => NaN
  end.

(** [a + b]: [Infinity + -Infinity] is [NaN]. *)
Definition add (a b : number) : number :=
  match a, b with
  | NaN, _ | _, NaN => NaN
  | Fin x, Fin y => Fin (x + y)
  | PInf, NInf | NInf, PInf => NaN
  | PInf, _ | _, PInf => PInf
  | NInf, _ | _, NInf => NInf
  end.

(** [a - b]. *)
Definition sub (a b : number) : number := add a (neg b).

(** [a * b]: [0 * Infinity] is [NaN]. *)
Definition mul (a b : number) : number :=
  match a, b with
  | NaN, _ | _, NaN => NaN
  | Fin x, Fin y => Fin (x * y)
  | PInf, Fin y | Fin y, PInf => by_sign y PInf NInf NaN
  | NInf, Fin y | Fin y, NInf => by_sign y NInf PInf NaN
  | PInf, PInf | NInf, NInf => PInf
  | PInf, NInf | NInf, PInf => NInf
  end.

(** [a / b]: a finite non-zero value over zero is an infinity of its sign,
    [0 / 0] and [Infinity / Infinity] are [NaN], a finite value over an
    infinity is zero. *)
Definition div (a b : number) : number :=
  match a, b with
  | NaN, _ | _, NaN => NaN
  | Fin x, Fin y =>
      if Req_dec_T y 0 then by_sign x PInf NInf NaN else Fin (x / y)
  | Fin _, (PInf | NInf) => Fin 0
  | PInf, Fin y => by_sign y PInf NInf PInf
  | NInf, Fin y => by_sign y NInf PInf NInf
  | (PInf | NInf), (PInf | NInf) => NaN
  end.

(** [Math.sqrt]: [NaN] below zero. *)
Definition Math_sqrt (a : number) : number :=
  match a with
  | Fin x => if Rlt_dec x 0 then NaN else Fin (sqrt x)
  | PInf => PInf
  | NInf | NaN => NaN
  end.

(** [Math.log]: [NaN] below zero, [-Infinity] at zero. *)
Definition Math_log (a : number) : number :=
  match a with
  | Fin x => by_sign x (Fin (ln x)) NaN NInf
  | PInf => PInf
  | NInf | NaN => NaN
  end.

(** [Math.exp]: [exp (-Infinity)] is zero. *)
Definition Math_exp (a : number) : number :=
  match a with
  | Fin x => Fin (exp x)
  | PInf => PInf
  | NInf => Fin 0
  | NaN => NaN
  end.

(** [Math.pow(a, n)] for an exponent that is a natural number. *)
Definition Math_pow (a : number) (n : nat) : number :=
  match n with
  | O => Fin 1
  | _ =>
      match a with
      | Fin x => Fin (x ^ n)
      | PInf => PInf
      | NInf => if Nat.even n then PInf else NInf
      | NaN => NaN
      end
  end.

(** A number that is not finite: what the specification calls a special
    value. *)
Definition special (a : number) : Prop :=
  match a with
  | Fin _ => False
  | PInf | NInf | NaN => True
  end.

Declare Scope js_scope.
Delimit Scope js_scope with js.
Bind Scope js_scope with number.
Infix "+" := add : js_scope.
Infix "-" := sub : js_scope.
Infix "*" := mul : js_scope.
Infix "/" := div : js_scope.
Notation "- a" := (neg a) : js_scope.

End JSNumber.

Import JSNumber.

(** ** The source functions over numbers with the IEEE special values *)

Module IEEE.

Section Pricing.

Variable erf : R -> R.

(** Modelled from the spec: the error function of [mathjs] at the special
    values.  The specification (4.1) has its result saturate where the
    argument is infinite, as the error function does: 1 at [+Infinity], -1 at
    [-Infinity]; [NaN] stays [NaN]. *)
Definition erf_number (a : number) : number :=
  match a with
  | Fin x => Fin (erf x)
  | PInf => Fin 1
  | NInf => Fin (-1)
  | NaN => NaN
  end.

Definition normCdf (x : number) (mu sigma : option number) : number :=
  let mu := dflt (Fin 0) mu in
  let sigma := dflt (Fin 1) sigma in
  (Fin 0.5 * (Fin 1 - erf_number ((mu - x) / (Math_sqrt (Fin 2) * sigma))))%js.

Definition blackScholesCall (S K sigma r t : number) (d : option number)
  : number :=
  let d := dflt (Fin 0) d in
  let d1 :=
    ((Math_log (S / K) + (r - d + Math_pow sigma 2 / Fin 2) * t)
     / (sigma * Math_sqrt t))%js in
  let d2 := (d1 - sigma * Math_sqrt t)%js in
  (S * Math_exp (- d * t) * normCdf d1 None None
   - K * Math_exp (- r * t) * normCdf d2 None None)%js.

Definition blackScholesPut (S K sigma r t : number) (d : option number)
  : number :=
  let d := dflt (Fin 0) d in
  let d1 :=
    ((Math_log (S / K) + (r - d + Math_pow sigma 2 / Fin 2) * t)
     / (sigma * Math_sqrt t))%js in
  let d2 := (d1 - sigma * Math_sqrt t)%js in
  (K * Math_exp (- r * t) * normCdf (- d2) None None
   - S * Math_exp (- d * t) * normCdf (- d1) None None)%js.

Definition blackScholesWarrantCall (S K sigma r t : number) (q : option number)
  : number :=
  let q := dflt (Fin 1) q in
  let d1 :=
    ((Math_log (S / K) + (r + Math_pow sigma 2 / Fin 2) * t)
     / (sigma * Math_sqrt t))%js in
  let d2 := (d1 - sigma * Math_sqrt t)%js in
  ((S * normCdf d1 None None - K * Math_exp (- r * t) * normCdf d2 None None)
   / q)%js.

End Pricing.

End IEEE.

(** ** Derivatives

    [dpl] differentiates an expression built from the arithmetic operators,
    [exp] and functions whose derivative is at hand, leaving the side
    conditions of the inverses. *)

Lemma dpl_eq f x l l' :
  derivable_pt_lim f x l -> l = l' -> derivable_pt_lim f x l'.
Proof. intros H <-. exact H. Qed.

Lemma derivable_pt_lim_inv f x l :
  f x <> 0 -> derivable_pt_lim f x l ->
  derivable_pt_lim (fun y => / f y) x (- l / (f x * f x)).
Proof.
  intros Hx Hf.
  apply (derivable_pt_lim_ext ((fun _ => 1) / f)%F).
  - intros z. unfold div_fct, Rdiv. ring.
  - eapply dpl_eq.
    + apply (derivable_pt_lim_div (fun _ => 1) f x 0 l); auto.
      apply (derivable_pt_lim_const 1).
    + unfold Rsqr. field. exact Hx.
Qed.

Ltac dpl :=
  lazymatch goal with
  | |- derivable_pt_lim (fun _ => ?a) ?x _ => apply (derivable_pt_lim_const a x)
  | |- derivable_pt_lim (fun y => y) ?x _ => apply (derivable_pt_lim_id x)
  | |- derivable_pt_lim (fun y => @?f y + @?g y) ?x _ =>
      apply (derivable_pt_lim_plus f g x); dpl
  | |- derivable_pt_lim (fun y => @?f y - @?g y) ?x _ =>
      apply (derivable_pt_lim_minus f g x); dpl
  | |- derivable_pt_lim (fun y => @?f y * @?g y) ?x _ =>
      apply (derivable_pt_lim_mult f g x); dpl
  | |- derivable_pt_lim (fun y => @?f y / @?g y) ?x _ =>
      apply (derivable_pt_lim_mult f (fun y => / g y) x); dpl
  | |- derivable_pt_lim (fun y => - @?f y) ?x _ =>
      apply (derivable_pt_lim_opp f x); dpl
  | |- derivable_pt_lim (fun y => / @?f y) ?x _ =>
      apply (derivable_pt_lim_inv f x); [ | dpl]
  | |- derivable_pt_lim (fun y => exp (@?f y)) ?x _ =>
      apply (derivable_pt_lim_comp f exp x); [dpl | apply derivable_pt_lim_exp]
  | |- derivable_pt_lim (fun y => ?h (@?f y)) ?x _ =>
      apply (derivable_pt_lim_comp f h x); [dpl | auto]
  | |- derivable_pt_lim ?h ?x _ => auto
  end.

(** ** The error function on the reals

    [erf_real] is the primitive of [exp (- x^2)] that vanishes at 0, divided
    by its limit at +infinity (the Gauss integral): the error function, with
    its normalising constant left as the integral it is.  It is the [erf] the
    properties below are instantiated with. *)

(** The Gaussian [exp (- x^2)]. *)
Definition gauss (x : R) : R := exp (- (x * x)).

Lemma gauss_pos x : 0 < gauss x.
Proof. apply exp_pos. Qed.

Lemma gauss_derivable x : derivable_pt_lim gauss x (gauss x * - (2 * x)).
Proof. unfold gauss. eapply dpl_eq; [dpl | lra]. Qed.

Lemma gauss_continuity_pt x : continuity_pt gauss x.
Proof.
  apply derivable_continuous_pt. exists (gauss x * - (2 * x)).
  apply gauss_derivable.
Qed.

Lemma gauss_integrable (a b : R) : Riemann_integrable gauss a b.
Proof.
  destruct (Rle_dec a b) as [Hab | Hab].
  - apply continuity_implies_RiemannInt; [exact Hab |].
    intros; apply gauss_continuity_pt.
  - apply RiemannInt_P1, continuity_implies_RiemannInt; [lra |].
    intros; apply gauss_continuity_pt.
Qed.

(** The integral of the Gaussian from 0 to [x]. *)
Definition gauss_int (x : R) : R := RiemannInt (gauss_integrable 0 x).

Lemma gauss_int_0 : gauss_int 0 = 0.
Proof. apply RiemannInt_P9. Qed.

(** [gauss_int] is a primitive of the Gaussian: on an interval around [x]
    it is Stdlib's [primitive] up to a constant. *)
Lemma gauss_int_deriv x : derivable_pt_lim gauss_int x (gauss x).
Proof.
  set (a := - (Rabs x + 1)). set (b := Rabs x + 1).
  pose proof (Rabs_pos x) as Hx0.
  assert (Hxa : a < x < b).
  { unfold a, b. pose proof (Rle_abs x). pose proof (Rle_abs (- x)) as H1.
    rewrite Rabs_Ropp in H1. lra. }
  assert (h : a <= b) by lra.
  assert (C0 : forall y, a <= y <= b -> continuity_pt gauss y)
    by (intros; apply gauss_continuity_pt).
  set (P := primitive h (FTC_P1 h C0)).
  assert (HP : forall y, a < y < b ->
             P y - RiemannInt (gauss_integrable a 0) = gauss_int y).
  { intros y Hy. unfold P, primitive.
    destruct (Rle_dec a y) as [r |]; [| lra].
    destruct (Rle_dec y b) as [r0 |]; [| lra].
    unfold gauss_int.
    rewrite <- (RiemannInt_P26 (gauss_integrable a 0) (gauss_integrable 0 y)
                  (FTC_P1 h C0 r r0)).
    ring. }
  apply (derivable_pt_lim_locally_ext
           (fun y => P y - RiemannInt (gauss_integrable a 0)) gauss_int x a b);
    [exact Hxa | exact HP |].
  eapply dpl_eq.
  - apply (derivable_pt_lim_minus P
             (fun _ => RiemannInt (gauss_integrable a 0))).
    + apply RiemannInt_P28. lra.
    + apply derivable_pt_lim_const.
  - lra.
Qed.

Lemma gauss_int_lt x y : x < y -> gauss_int x < gauss_int y.
Proof.
  intros Hlt.
  destruct (MVT_cor2 gauss_int gauss x y Hlt) as (z & Hz & _).
  - intros; apply gauss_int_deriv.
  - pose proof (gauss_pos z). nra.
Qed.

Lemma gauss_int_odd x : gauss_int (- x) = - gauss_int x.
Proof.
  set (F := fun y => gauss_int y + gauss_int (- y)).
  assert (HF : forall y, derivable_pt_lim F y 0).
  { intros y. unfold F. eapply dpl_eq.
    - apply (derivable_pt_lim_plus gauss_int (fun y => gauss_int (- y))).
      + apply gauss_int_deriv.
      + apply (derivable_pt_lim_comp (fun y => - y) gauss_int).
        * dpl.
        * apply gauss_int_deriv.
    - unfold gauss. replace (- y * - y) with (y * y) by ring. lra. }
  assert (HF0 : F 0 = 0).
  { unfold F. rewrite Ropp_0, gauss_int_0. lra. }
  assert (HFx : F x = 0).
  { destruct (Rtotal_order 0 x) as [H | [<- | H]]; [| exact HF0 |].
    - destruct (MVT_cor2 F (fun _ => 0) 0 x H) as (z & Hz & _);
        [intros; apply HF | lra].
    - destruct (MVT_cor2 F (fun _ => 0) x 0 H) as (z & Hz & _);
        [intros; apply HF | lra]. }
  unfold F in HFx. lra.
Qed.

(** Past 1 the Gaussian is below [exp (- x)], whose integral is bounded. *)
Lemma gauss_int_bound x : gauss_int x <= gauss_int 1 + exp (- 1).
Proof.
  pose proof (exp_pos (- 1)) as He1.
  destruct (Rle_lt_dec x 1) as [[H | ->] | H];
    [pose proof (gauss_int_lt x 1 H) | |]; try lra.
  set (F := fun y => gauss_int y + exp (- y)).
  destruct (MVT_cor2 F (fun y => gauss y - exp (- y)) 1 x H) as (z & Hz & Hz1).
  - intros y _. unfold F. eapply dpl_eq.
    + apply (derivable_pt_lim_plus gauss_int (fun y => exp (- y))).
      * apply gauss_int_deriv.
      * dpl.
    + lra.
  - assert (gauss z <= exp (- z)).
    { unfold gauss.
      destruct (Req_dec (- (z * z)) (- z)) as [-> | Hne]; [lra |].
      left. apply exp_increasing. nra. }
    assert (0 <= (exp (- z) - gauss z) * (x - 1)) by (apply Rmult_le_pos; lra).
    unfold F in Hz. replace (- (1)) with (-1) in Hz by lra.
    pose proof (exp_pos (- x)). lra.
Qed.

(** The values [gauss_int] takes, and their least upper bound: the integral
    of the Gaussian over the positive half-line. *)
Definition gauss_range (y : R) : Prop := exists x, y = gauss_int x.

Lemma gauss_range_bound : bound gauss_range.
Proof.
  exists (gauss_int 1 + exp (- 1)). intros y [x ->]. apply gauss_int_bound.
Qed.

Lemma gauss_range_inhabited : exists y, gauss_range y.
Proof. exists (gauss_int 0), 0. reflexivity. Qed.

Definition gauss_total : R :=
  proj1_sig (completeness gauss_range gauss_range_bound gauss_range_inhabited).

Lemma gauss_total_lub : is_lub gauss_range gauss_total.
Proof.
  unfold gauss_total.
  destruct (completeness gauss_range gauss_range_bound gauss_range_inhabited)
    as [m Hm].
  exact Hm.
Qed.

Lemma gauss_int_le_total x : gauss_int x <= gauss_total.
Proof. apply (proj1 gauss_total_lub). exists x. reflexivity. Qed.

Lemma gauss_total_pos : 0 < gauss_total.
Proof.
  pose proof (gauss_int_lt 0 1 ltac:(lra)) as H. rewrite gauss_int_0 in H.
  pose proof (gauss_int_le_total 1). lra.
Qed.

Lemma gauss_int_approaches eps :
  0 < eps -> exists M, forall x, M <= x -> gauss_total - eps < gauss_int x.
Proof.
  intros Heps.
  destruct (classic (exists M, gauss_total - eps < gauss_int M))
    as [[M HM] | Hno].
  - exists M. intros x [Hx | <-]; [| exact HM].
    pose proof (gauss_int_lt M x Hx). lra.
  - exfalso.
    assert (Hub : is_upper_bound gauss_range (gauss_total - eps)).
    { intros y [x ->].
      destruct (Rle_lt_dec (gauss_int x) (gauss_total - eps)); [assumption |].
      elim Hno. exists x. assumption. }
    pose proof (proj2 gauss_total_lub _ Hub). lra.
Qed.

(** Modelled from the spec: the error function, which the source imports
    from [mathjs] and the repository does not contain: the primitive of
    [exp (- x^2)] that vanishes at 0, over its limit at +infinity. *)
Definition erf_real (x : R) : R := gauss_int x / gauss_total.

Lemma erf_real_gaussian : gaussian_primitive erf_real (/ gauss_total).
Proof.
  intros x. unfold erf_real. eapply dpl_eq.
  - apply (derivable_pt_lim_mult gauss_int (fun _ => / gauss_total)).
    + apply gauss_int_deriv.
    + apply derivable_pt_lim_const.
  - unfold gauss. cbv beta. ring.
Qed.

Lemma erf_real_is_odd : odd erf_real.
Proof.
  intros x. unfold erf_real. rewrite gauss_int_odd. unfold Rdiv. ring.
Qed.

Lemma erf_real_tends_to_one : tends_to_one erf_real.
Proof.
  intros eps Heps. pose proof gauss_total_pos as Hg.
  destruct (gauss_int_approaches (eps * gauss_total)) as [M HM]; [nra |].
  exists M. intros x Hx. specialize (HM x Hx).
  pose proof (gauss_int_le_total x) as Hle.
  unfold erf_real.
  replace (gauss_int x / gauss_total - 1)
    with (- ((gauss_total - gauss_int x) / gauss_total)) by (field; lra).
  rewrite Rabs_Ropp, Rabs_pos_eq.
  - apply (Rmult_lt_reg_r gauss_total); [lra |].
    unfold Rdiv. rewrite Rmult_assoc, Rinv_l by lra. lra.
  - apply Rmult_le_pos; [lra |]. left. apply Rinv_0_lt_compat. lra.
Qed.

(** ** The formulas the functions compute *)

Lemma sqrt2_pos : 0 < sqrt 2.
Proof. apply sqrt_lt_R0; lra. Qed.

Lemma sqrt2_sqr : sqrt 2 * sqrt 2 = 2.
Proof. apply sqrt_sqrt; lra. Qed.

Lemma sqrt2_inv : / sqrt 2 = sqrt 2 / 2.
Proof.
  pose proof sqrt2_pos. pose proof sqrt2_sqr.
  apply (Rmult_eq_reg_l (sqrt 2)); [| lra].
  rewrite Rinv_r by lra. lra.
Qed.

(** [normCdf] with its defaults, the division by [sqrt 2] carried out. *)
Lemma normCdf_std erf x :
  normCdf erf x None None = 0.5 * (1 - erf (- x * (sqrt 2 / 2))).
Proof.
  cbv beta delta [normCdf dflt] iota zeta.
  do 3 f_equal. unfold Rdiv at 1. rewrite Rmult_1_r, sqrt2_inv. lra.
Qed.

(** The source's [d1] and [d2] are the specification's. *)
Lemma source_d1 S K sigma r t d :
  (ln (S / K) + (r - d + sigma ^ 2 / 2) * t) / (sigma * sqrt t)
  = spec_d1 S K sigma r t d.
Proof.
  unfold spec_d1, Rsqr.
  replace (sigma ^ 2) with (sigma * sigma) by ring. reflexivity.
Qed.

Lemma source_warrant_d1 S K sigma r t :
  (ln (S / K) + (r + sigma ^ 2 / 2) * t) / (sigma * sqrt t)
  = spec_warrant_d1 S K sigma r t.
Proof.
  unfold spec_warrant_d1, Rsqr.
  replace (sigma ^ 2) with (sigma * sigma) by ring. reflexivity.
Qed.

(** C1: for every S, K, sigma, r, t and d (0 when omitted),
    [blackScholesCall] is S e^(-d t) Phi(d1) - K e^(-r t) Phi(d2) with
    d1 = (ln(S/K) + (r - d + sigma^2/2) t) / (sigma sqrt t),
    d2 = d1 - sigma sqrt t and Phi the standard normal CDF of [normCdf]. *)
Theorem blackScholesCall_formula erf S K sigma r t (d : option R) :
  blackScholesCall erf S K sigma r t d
  = spec_call erf S K sigma r t (dflt 0 d).
Proof.
  cbv beta delta [blackScholesCall] zeta.
  rewrite source_d1.
  unfold spec_call, spec_d2, Phi.
  replace (- dflt 0 d * t) with (- (dflt 0 d * t)) by ring.
  replace (- r * t) with (- (r * t)) by ring.
  reflexivity.
Qed.

(** C2: for every S, K, sigma, r, t and d (0 when omitted),
    [blackScholesPut] is K e^(-r t) Phi(-d2) - S e^(-d t) Phi(-d1), with the
    d1 and d2 of the call, computed by the put's own expressions. *)
Theorem blackScholesPut_formula erf S K sigma r t (d : option R) :
  blackScholesPut erf S K sigma r t d
  = spec_put erf S K sigma r t (dflt 0 d).
Proof.
  cbv beta delta [blackScholesPut] zeta.
  rewrite source_d1.
  unfold spec_put, spec_d2, Phi.
  replace (- dflt 0 d * t) with (- (dflt 0 d * t)) by ring.
  replace (- r * t) with (- (r * t)) by ring.
  reflexivity.
Qed.

(** C3: for every S, K, sigma, r, t and q (1 when omitted),
    [blackScholesWarrantCall] is (S Phi(d1) - K e^(-r t) Phi(d2)) / q with
    d1 = (ln(S/K) + (r + sigma^2/2) t) / (sigma sqrt t) and
    d2 = d1 - sigma sqrt t: the spot term carries no dividend discount and
    the whole payoff is divided by q. *)
Theorem blackScholesWarrantCall_formula erf S K sigma r t (q : option R) :
  blackScholesWarrantCall erf S K sigma r t q
  = spec_warrant erf S K sigma r t (dflt 1 q).
Proof.
  cbv beta delta [blackScholesWarrantCall] zeta.
  rewrite source_warrant_d1.
  unfold spec_warrant, spec_warrant_d2, Phi.
  replace (- r * t) with (- (r * t)) by ring.
  reflexivity.
Qed.

(** C5: with conversion ratio 1 and dividend yield 0 the warrant formula is
    the vanilla call, for every S, K, sigma, r and t. *)
Theorem warrant_identity erf S K sigma r t :
  blackScholesWarrantCall erf S K sigma r t (Some 1)
  = blackScholesCall erf S K sigma r t (Some 0).
Proof.
  cbv beta delta [blackScholesWarrantCall blackScholesCall dflt] iota zeta.
  replace (r - 0 + sigma ^ 2 / 2) with (r + sigma ^ 2 / 2) by ring.
  replace (- 0 * t) with 0 by ring.
  rewrite exp_0. unfold Rdiv at 1. rewrite Rinv_1. ring.
Qed.

(** C10: negating the volatility turns the call into the negated put, for
    S > 0, K > 0, t > 0, sigma > 0 and every r and d. *)
Theorem call_negated_volatility erf S K sigma r t d :
  0 < S -> 0 < K -> 0 < t -> 0 < sigma ->
  blackScholesCall erf S K (- sigma) r t (Some d)
  = - blackScholesPut erf S K sigma r t (Some d).
Proof.
  intros _ _ Ht Hsigma.
  pose proof (sqrt_lt_R0 t Ht) as Hq.
  cbv beta delta [blackScholesCall blackScholesPut dflt] iota zeta.
  replace ((- sigma) ^ 2) with (sigma ^ 2) by ring.
  set (n := ln (S / K) + (r - d + sigma ^ 2 / 2) * t).
  replace (n / (- sigma * sqrt t)) with (- (n / (sigma * sqrt t)))
    by (field; lra).
  replace (- (n / (sigma * sqrt t)) - - sigma * sqrt t)
    with (- (n / (sigma * sqrt t) - sigma * sqrt t)) by ring.
  ring.
Qed.

Lemma call_negated_volatility_witness :
  blackScholesCall erf_real 100 100 (- (0.2)) 0.05 1 (Some 0)
  = - blackScholesPut erf_real 100 100 0.2 0.05 1 (Some 0).
Proof. apply (call_negated_volatility erf_real); lra. Defined.

(** ** Identities that hold because [erf] is odd *)

Section OddErf.

Variable erf : R -> R.
Hypothesis erf_odd : odd erf.

Lemma normCdf_reflect x :
  normCdf erf x None None + normCdf erf (- x) None None = 1.
Proof.
  rewrite !normCdf_std.
  replace (- - x * (sqrt 2 / 2)) with (- (- x * (sqrt 2 / 2))) by ring.
  rewrite erf_odd. lra.
Qed.



(** The CDF at the mean: [normCdf 0] is 0.5. *)
Lemma normCdf_at_zero : normCdf erf 0 None None = 0.5.
Proof.
  pose proof (normCdf_reflect 0) as H. rewrite Ropp_0 in H. lra.
Qed.

End OddErf.


(** Dilution: a conversion ratio q divides the price at ratio 1. *)
Lemma warrant_dilution erf S K sigma r t q :
  blackScholesWarrantCall erf S K sigma r t (Some q)
  = blackScholesWarrantCall erf S K sigma r t None / q.
Proof.
  cbv beta delta [blackScholesWarrantCall dflt] iota zeta.
  set (v := S * _ - _).
  replace (v / 1) with v by (unfold Rdiv; rewrite Rinv_1; ring).
  reflexivity.
Qed.



(** ** The call price is not negative

    For an [erf] that is a primitive of a positive multiple of [exp (- x^2)]
    and tends to 1 at +infinity, [Phi x * exp (x^2 / 2)] is increasing (the
    Gaussian tail bound), and the call price follows from comparing it at d2
    and d1. *)

Section GaussianErf.

Variable erf : R -> R.
Variable c : R.
Hypothesis c_pos : 0 < c.
Hypothesis erf_deriv : gaussian_primitive erf c.
Hypothesis erf_lim : tends_to_one erf.

Lemma erf_incr x y : x <= y -> erf x <= erf y.
Proof.
  intros [Hlt | ->]; [| lra].
  destruct (MVT_cor2 erf (fun z => c * exp (- (z * z))) x y Hlt)
    as (z & Hz & _).
  - intros; apply erf_deriv.
  - assert (0 < c * exp (- (z * z)))
      by (apply Rmult_lt_0_compat; [lra | apply exp_pos]).
    nra.
Qed.

Lemma erf_le_1 x : erf x <= 1.
Proof.
  destruct (Rle_lt_dec (erf x) 1) as [H | H]; [exact H | exfalso].
  destruct (erf_lim (erf x - 1)) as [M HM]; [lra |].
  assert (Hy := HM (Rmax M x) (Rmax_l _ _)).
  assert (Hi := erf_incr x (Rmax M x) (Rmax_r _ _)).
  apply Rabs_def2 in Hy. lra.
Qed.

(** The tail bound: 1 - erf u <= c e^(-u^2) / (2 u) for u > 0.  Their
    difference increases on u > 0 and tends to 0. *)
Lemma erf_tail u : 0 < u -> 1 - erf u <= c * exp (- (u * u)) / (2 * u).
Proof.
  intros Hu.
  set (k := fun v => 1 - erf v - c * exp (- (v * v)) / (2 * v)).
  set (k' := fun v => c * exp (- (v * v)) / (2 * (v * v))).
  assert (Hk : forall v, 0 < v -> derivable_pt_lim k v (k' v)).
  { intros v Hv. unfold k, k'.
    pose proof (erf_deriv : forall x, derivable_pt_lim erf x _) as Hd.
    eapply dpl_eq; [dpl; lra | field; lra]. }
  assert (Hk' : forall v, 0 < v -> 0 < k' v).
  { intros v Hv. unfold k'. apply Rdiv_lt_0_compat; [| nra].
    apply Rmult_lt_0_compat; [lra | apply exp_pos]. }
  destruct (Rle_lt_dec (k u) 0) as [H | H]; [unfold k in H; lra | exfalso].
  destruct (erf_lim (k u) H) as [M HM].
  set (y := Rmax M u + 1).
  assert (Hy : u < y) by (unfold y; pose proof (Rmax_r M u); lra).
  assert (HMy : M <= y) by (unfold y; pose proof (Rmax_l M u); lra).
  destruct (MVT_cor2 k k' u y Hy) as (z & Hz & Hz1).
  - intros v Hv. apply Hk. lra.
  - assert (0 < k' z) by (apply Hk'; lra).
    assert (Hku : k u <= k y) by nra.
    apply HM, Rabs_def2 in HMy.
    assert (0 < c * exp (- (y * y)) / (2 * y)).
    { apply Rdiv_lt_0_compat; [| lra].
      apply Rmult_lt_0_compat; [lra | apply exp_pos]. }
    unfold k in Hku at 2. lra.
Qed.

Lemma normCdf_nonneg x : 0 <= normCdf erf x None None.
Proof.
  rewrite normCdf_std. pose proof (erf_le_1 (- x * (sqrt 2 / 2))). lra.
Qed.

Lemma normCdf_deriv x :
  derivable_pt_lim (fun y => normCdf erf y None None) x
    (c * sqrt 2 / 4 * exp (- (x * x / 2))).
Proof.
  apply (derivable_pt_lim_ext
           (fun y => 0.5 * (1 - erf (- y * (sqrt 2 / 2))))).
  { intros z. symmetry. apply normCdf_std. }
  pose proof (erf_deriv : forall x, derivable_pt_lim erf x _) as Hd.
  eapply dpl_eq; [dpl |].
  replace (- x * (sqrt 2 / 2) * (- x * (sqrt 2 / 2))) with (x * x / 2)
    by (pose proof sqrt2_sqr; nra).
  lra.
Qed.

Lemma mills_deriv x :
  derivable_pt_lim (mills erf) x (c * sqrt 2 / 4 + x * mills erf x).
Proof.
  unfold mills.
  eapply dpl_eq.
  - apply (derivable_pt_lim_mult (fun y => normCdf erf y None None)
             (fun y => exp (y * y / 2))).
    + apply normCdf_deriv.
    + dpl.
  - cbv beta.
    replace (exp (- (x * x / 2))) with (/ exp (x * x / 2))
      by (rewrite exp_Ropp; reflexivity).
    field. pose proof (exp_pos (x * x / 2)). lra.
Qed.

Lemma mills_deriv_nonneg x : 0 <= c * sqrt 2 / 4 + x * mills erf x.
Proof.
  pose proof sqrt2_pos as Hs. pose proof sqrt2_sqr as Hs2.
  pose proof (exp_pos (x * x / 2)) as He.
  pose proof (normCdf_nonneg x) as Hn.
  destruct (Rle_lt_dec 0 x) as [Hx | Hx].
  - unfold mills.
    assert (0 <= x * (normCdf erf x None None * exp (x * x / 2))).
    { apply Rmult_le_pos; [lra |]. apply Rmult_le_pos; lra. }
    nra.
  - set (u := - x * (sqrt 2 / 2)).
    assert (Hu : 0 < u) by (unfold u; nra).
    pose proof (erf_tail u Hu) as Ht.
    assert (Huu : u * u = x * x / 2) by (unfold u; nra).
    rewrite Huu in Ht. rewrite exp_Ropp in Ht.
    unfold mills. rewrite normCdf_std. fold u.
    set (E := exp (x * x / 2)) in *.
    assert (Hb : (1 - erf u) * E <= c / (2 * u)).
    { apply (Rmult_le_compat_r E) in Ht; [| lra].
      replace (c * / E / (2 * u) * E) with (c / (2 * u)) in Ht
        by (field; lra).
      exact Ht. }
    assert (Hxu : x * (c / (2 * u)) = - (c * sqrt 2 / 2)).
    { replace (2 * u) with (- x * sqrt 2) by (unfold u; lra).
      replace (x * (c / (- x * sqrt 2))) with (- c * / sqrt 2)
        by (field; lra).
      rewrite sqrt2_inv. lra. }
    assert (x * (c / (2 * u)) <= x * ((1 - erf u) * E)).
    { apply Rmult_le_compat_neg_l; lra. }
    lra.
Qed.

Lemma mills_incr x y : x <= y -> mills erf x <= mills erf y.
Proof.
  intros [Hlt | ->]; [| lra].
  destruct (MVT_cor2 (mills erf) (fun z => c * sqrt 2 / 4 + z * mills erf z)
              x y Hlt)
    as (z & Hz & _).
  - intros; apply mills_deriv.
  - pose proof (mills_deriv_nonneg z). nra.
Qed.


End GaussianErf.


(** ** The exported surface *)

(** C9, as stated, fails: no export of the module is named [normalCdf]. *)
Lemma normalCdf_not_exposed : ~ exposes "normalCdf".
Proof.
  unfold exposes, exported_names. simpl.
  intros [H | [H | [H | [H | []]]]]; discriminate H.
Qed.

(** C9, amended: the module exports [blackScholesCall], [blackScholesPut]
    and [blackScholesWarrantCall] (and [blackScholesCall] again as its
    default); the CDF is the binding [normCdf], which is not exported, and
    it computes 0.5 (1 - erf ((mu - x) / (sqrt 2 sigma))), with mu = 0 and
    sigma = 1 when omitted. *)
Theorem exported_surface :
  map binding_name named_exports
  = ["blackScholesCall"; "blackScholesPut"; "blackScholesWarrantCall"]%string
  /\ default_export = BlackScholesCall
  /\ In NormCdf bindings
  /\ ~ In NormCdf named_exports
  /\ ~ exposes (binding_name NormCdf)
  /\ (forall erf x mu sigma,
        normCdf erf x (Some mu) (Some sigma)
        = 0.5 * (1 - erf ((mu - x) / (sqrt 2 * sigma))))
  /\ (forall erf x,
        normCdf erf x None None = 0.5 * (1 - erf ((0 - x) / (sqrt 2 * 1)))).
Proof.
  repeat split.
  - simpl. auto.
  - simpl. intros [H | [H | [H | []]]]; discriminate H.
  - unfold exposes, exported_names. simpl.
    intros [H | [H | [H | [H | []]]]]; discriminate H.
Qed.

(** ** Zero volatility and the special values *)

Lemma by_sign_pos x p n z : 0 < x -> by_sign x p n z = p.
Proof.
  intros H. unfold by_sign. destruct (Rlt_dec 0 x); [reflexivity | lra].
Qed.

Lemma by_sign_neg x p n z : x < 0 -> by_sign x p n z = n.
Proof.
  intros H. unfold by_sign. destruct (Rlt_dec 0 x); [lra |].
  destruct (Rlt_dec x 0); [reflexivity | lra].
Qed.

Lemma by_sign_zero p n z : by_sign 0 p n z = z.
Proof.
  unfold by_sign. destruct (Rlt_dec 0 0); [lra |].
  destruct (Rlt_dec 0 0); [lra | reflexivity].
Qed.

Lemma add_Fin x y : (Fin x + Fin y)%js = Fin (x + y).
Proof. reflexivity. Qed.

Lemma sub_Fin x y : (Fin x - Fin y)%js = Fin (x - y).
Proof. reflexivity. Qed.

Lemma mul_Fin x y : (Fin x * Fin y)%js = Fin (x * y).
Proof. reflexivity. Qed.

Lemma neg_Fin x : (- Fin x)%js = Fin (- x).
Proof. reflexivity. Qed.

Lemma div_Fin x y : y <> 0 -> (Fin x / Fin y)%js = Fin (x / y).
Proof.
  intros H. cbn. destruct (Req_dec_T y 0); [contradiction | reflexivity].
Qed.

Lemma div_Fin_zero x y :
  y = 0 -> (Fin x / Fin y)%js = by_sign x PInf NInf NaN.
Proof.
  intros H. cbn. destruct (Req_dec_T y 0); [reflexivity | contradiction].
Qed.

Lemma Math_exp_Fin x : Math_exp (Fin x) = Fin (exp x).
Proof. reflexivity. Qed.

Lemma Math_pow_Fin x n : Math_pow (Fin x) (S n) = Fin (x ^ S n).
Proof. reflexivity. Qed.

Lemma Math_sqrt_Fin x : 0 <= x -> Math_sqrt (Fin x) = Fin (sqrt x).
Proof. intros H. cbn. destruct (Rlt_dec x 0); [lra | reflexivity]. Qed.

Lemma Math_log_Fin x : 0 < x -> Math_log (Fin x) = Fin (ln x).
Proof. intros H. apply by_sign_pos, H. Qed.

Ltac fin_arith :=
  repeat
    (progress rewrite ?neg_Fin, ?sub_Fin, ?add_Fin, ?mul_Fin, ?Math_exp_Fin).

(** [normCdf] saturates at the infinities. *)
Lemma normCdf_PInf erf : IEEE.normCdf erf PInf None None = Fin 1.
Proof.
  cbv beta delta [IEEE.normCdf dflt] iota zeta.
  rewrite Math_sqrt_Fin by lra. fin_arith.
  cbn [sub neg add div]. rewrite by_sign_pos by (pose proof sqrt2_pos; lra).
  cbn. f_equal. lra.
Qed.

Lemma normCdf_NInf erf : IEEE.normCdf erf NInf None None = Fin 0.
Proof.
  cbv beta delta [IEEE.normCdf dflt] iota zeta.
  rewrite Math_sqrt_Fin by lra. fin_arith.
  cbn [sub neg add div]. rewrite by_sign_pos by (pose proof sqrt2_pos; lra).
  cbn. f_equal. lra.
Qed.

Lemma normCdf_NaN erf : IEEE.normCdf erf NaN None None = NaN.
Proof.
  cbv beta delta [IEEE.normCdf dflt] iota zeta.
  rewrite Math_sqrt_Fin by lra. reflexivity.
Qed.

(** On finite arguments (a non-zero sigma) the special values play no part:
    [IEEE.normCdf] is [normCdf]. *)
Lemma normCdf_Fin erf x mu sigma :
  sigma <> 0 ->
  IEEE.normCdf erf (Fin x) (Some (Fin mu)) (Some (Fin sigma))
  = Fin (normCdf erf x (Some mu) (Some sigma)).
Proof.
  intros Hs.
  cbv beta delta [IEEE.normCdf normCdf dflt] iota zeta.
  rewrite Math_sqrt_Fin by lra. fin_arith.
  rewrite div_Fin by (pose proof sqrt2_pos; nra).
  reflexivity.
Qed.

Lemma normCdf_Fin_std erf x :
  IEEE.normCdf erf (Fin x) None None = Fin (normCdf erf x None None).
Proof. apply (normCdf_Fin erf x 0 1). lra. Qed.

(** At zero volatility d1 is the quotient of ln(S/K) + (r - d) t by zero:
    an infinity of its sign, or [NaN] for 0/0. *)
Lemma d1_sigma_zero S K r t d :
  0 < S -> 0 < K -> 0 < t ->
  ((Math_log (Fin S / Fin K)
    + (Fin r - Fin d + Math_pow (Fin 0) 2 / Fin 2) * Fin t)
   / (Fin 0 * Math_sqrt (Fin t)))%js
  = by_sign (ln (S / K) + (r - d) * t) PInf NInf NaN.
Proof.
  intros HS HK Ht.
  assert (HSK : 0 < S / K) by (apply Rdiv_lt_0_compat; lra).
  rewrite (div_Fin S K) by lra.
  rewrite (Math_log_Fin _ HSK), (Math_sqrt_Fin t) by lra.
  rewrite Math_pow_Fin, (div_Fin _ 2) by lra.
  fin_arith. rewrite div_Fin_zero by ring.
  f_equal. simpl. lra.
Qed.




(** ** The two embeddings agree on valid inputs

    For finite S > 0, K > 0, t > 0 and a non-zero sigma (and a non-zero q)
    no special value arises, and the functions of [IEEE] return the real
    numbers the top-level functions compute. *)

Ltac fin_pricing Hv :=
  rewrite ?Math_pow_Fin, ?(div_Fin _ 2) by lra;
  fin_arith; rewrite (div_Fin _ _ Hv); fin_arith;
  rewrite ?normCdf_Fin_std; fin_arith.

Section Agreement.

Variable erf : R -> R.
Variables S K sigma r t : R.
Hypothesis S_pos : 0 < S.
Hypothesis K_pos : 0 < K.
Hypothesis t_pos : 0 < t.
Hypothesis sigma_nonzero : sigma <> 0.

Lemma spot_over_strike : Math_log (Fin S / Fin K) = Fin (ln (S / K)).
Proof.
  rewrite div_Fin by lra.
  apply Math_log_Fin, Rdiv_lt_0_compat; lra.
Qed.

Lemma total_volatility_nonzero : sigma * sqrt t <> 0.
Proof. pose proof (sqrt_lt_R0 t t_pos). nra. Qed.

Lemma blackScholesCall_Fin d :
  IEEE.blackScholesCall erf (Fin S) (Fin K) (Fin sigma) (Fin r) (Fin t)
    (Some (Fin d))
  = Fin (blackScholesCall erf S K sigma r t (Some d)).
Proof.
  cbv beta delta [IEEE.blackScholesCall blackScholesCall dflt] iota zeta.
  rewrite spot_over_strike, (Math_sqrt_Fin t) by lra.
  fin_pricing total_volatility_nonzero. reflexivity.
Qed.

Lemma blackScholesPut_Fin d :
  IEEE.blackScholesPut erf (Fin S) (Fin K) (Fin sigma) (Fin r) (Fin t)
    (Some (Fin d))
  = Fin (blackScholesPut erf S K sigma r t (Some d)).
Proof.
  cbv beta delta [IEEE.blackScholesPut blackScholesPut dflt] iota zeta.
  rewrite spot_over_strike, (Math_sqrt_Fin t) by lra.
  fin_pricing total_volatility_nonzero. reflexivity.
Qed.

Lemma blackScholesWarrantCall_Fin q :
  q <> 0 ->
  IEEE.blackScholesWarrantCall erf (Fin S) (Fin K) (Fin sigma) (Fin r) (Fin t)
    (Some (Fin q))
  = Fin (blackScholesWarrantCall erf S K sigma r t (Some q)).
Proof.
  intros Hq.
  cbv beta delta [IEEE.blackScholesWarrantCall blackScholesWarrantCall dflt]
    iota zeta.
  rewrite spot_over_strike, (Math_sqrt_Fin t) by lra.
  fin_pricing total_volatility_nonzero.
  rewrite (div_Fin _ q Hq). reflexivity.
Qed.

End Agreement.


(** * Further properties of the functions

    What follows goes beyond the formulas: the range and monotonicity of
    [normCdf], bounds on the prices, how the prices move with the spot, the
    strike and the volatility, and what the functions return at the edges
    of their domain. *)

(** ** The CDF *)

Section ErrorFunctionBounds.

Variable erf : R -> R.
Variable c : R.
Hypothesis c_pos : 0 < c.
Hypothesis erf_deriv : gaussian_primitive erf c.
Hypothesis erf_lim : tends_to_one erf.
Hypothesis erf_odd : odd erf.

Lemma erf_range x : -1 <= erf x <= 1.
Proof.
  pose proof (erf_le_1 erf c c_pos erf_deriv erf_lim x).
  pose proof (erf_le_1 erf c c_pos erf_deriv erf_lim (- x)) as H1.
  rewrite erf_odd in H1. lra.
Qed.



(** Of two points, the CDF at the lower is at most the CDF at the higher
    times the ratio of the Gaussian densities. *)
Lemma cdf_exchange x y :
  y <= x ->
  normCdf erf y None None
  <= normCdf erf x None None * exp ((x * x - y * y) / 2).
Proof.
  intros Hyx.
  pose proof (mills_incr erf c c_pos erf_deriv erf_lim y x Hyx) as Hm.
  unfold mills in Hm.
  replace ((x * x - y * y) / 2) with (x * x / 2 + - (y * y / 2)) by lra.
  rewrite exp_plus, exp_Ropp.
  pose proof (exp_pos (y * y / 2)) as He.
  apply (Rmult_le_reg_r (exp (y * y / 2))); [exact He |].
  replace (normCdf erf x None None * (exp (x * x / 2) * / exp (y * y / 2))
           * exp (y * y / 2))
    with (normCdf erf x None None * exp (x * x / 2)) by (field; lra).
  exact Hm.
Qed.

End ErrorFunctionBounds.

(** ** Bounds on the prices *)

(** Half the gap between the squares of d1 and d2 is the log of the forward
    moneyness. *)
Lemma moneyness_gap S K sigma r t d :
  0 < sigma -> 0 < t ->
  let d1 := (ln (S / K) + (r - d + sigma ^ 2 / 2) * t) / (sigma * sqrt t) in
  let d2 := d1 - sigma * sqrt t in
  (d1 * d1 - d2 * d2) / 2 = ln (S / K) + (r - d) * t.
Proof.
  intros sigma_pos t_pos d1 d2.
  pose proof (sqrt_lt_R0 t t_pos) as Hq.
  pose proof (sqrt_sqrt t (Rlt_le _ _ t_pos)) as Hqq.
  assert (Hv : 0 < sigma * sqrt t) by nra.
  assert (Hd1 : d1 * (sigma * sqrt t)
                = ln (S / K) + (r - d + sigma ^ 2 / 2) * t)
    by (unfold d1; field; lra).
  unfold d2.
  replace ((d1 * d1 - (d1 - sigma * sqrt t) * (d1 - sigma * sqrt t)) / 2)
    with (d1 * (sigma * sqrt t) - sigma ^ 2 * (sqrt t * sqrt t) / 2) by field.
  rewrite Hd1, Hqq. lra.
Qed.

Lemma forward_ratio S K r t d :
  0 < S -> 0 < K ->
  exp (ln (S / K) + (r - d) * t) * (K * exp (- r * t)) = S * exp (- d * t).
Proof.
  intros S_pos K_pos.
  rewrite exp_plus, exp_ln by (apply Rdiv_lt_0_compat; lra).
  replace (- d * t) with ((r - d) * t + - r * t) by ring.
  rewrite (exp_plus ((r - d) * t)). field. lra.
Qed.

(** The spot term weighted by the Gaussian density at d1 is the strike term
    weighted by the density at d2. *)
Lemma density_balance S K sigma r t d :
  0 < S -> 0 < K -> 0 < sigma -> 0 < t ->
  let d1 := (ln (S / K) + (r - d + sigma ^ 2 / 2) * t) / (sigma * sqrt t) in
  let d2 := d1 - sigma * sqrt t in
  S * exp (- d * t) * exp (- (d1 * d1 / 2))
  = K * exp (- r * t) * exp (- (d2 * d2 / 2)).
Proof.
  intros HS HK Hs Ht d1 d2.
  pose proof (moneyness_gap S K sigma r t d Hs Ht) as Hgap.
  cbv zeta in Hgap. fold d1 in Hgap. fold d2 in Hgap.
  rewrite <- (forward_ratio S K r t d HS HK), <- Hgap.
  replace ((d1 * d1 - d2 * d2) / 2) with (d1 * d1 / 2 + - (d2 * d2 / 2))
    by field.
  rewrite exp_plus, !exp_Ropp.
  pose proof (exp_pos (d1 * d1 / 2)). pose proof (exp_pos (d2 * d2 / 2)).
  field. lra.
Qed.

Section PriceBounds.

Variable erf : R -> R.
Variable c : R.
Hypothesis c_pos : 0 < c.
Hypothesis erf_deriv : gaussian_primitive erf c.
Hypothesis erf_lim : tends_to_one erf.
Hypothesis erf_odd : odd erf.

(** The strike term is below the spot term in the call, and the spot term
    below the strike term in the put. *)
Lemma discounted_order S K sigma r t d :
  0 < S -> 0 < K -> 0 < sigma -> 0 < t ->
  let d1 := (ln (S / K) + (r - d + sigma ^ 2 / 2) * t) / (sigma * sqrt t) in
  let d2 := d1 - sigma * sqrt t in
  K * exp (- r * t) * normCdf erf d2 None None
  <= S * exp (- d * t) * normCdf erf d1 None None
  /\ S * exp (- d * t) * normCdf erf (- d1) None None
     <= K * exp (- r * t) * normCdf erf (- d2) None None.
Proof.
  intros S_pos K_pos sigma_pos t_pos d1 d2.
  pose proof (sqrt_lt_R0 t t_pos) as Hq.
  assert (Hv : 0 < sigma * sqrt t) by nra.
  assert (H21 : d2 <= d1) by (unfold d2; lra).
  pose proof (moneyness_gap S K sigma r t d sigma_pos t_pos) as Hgap.
  cbv zeta in Hgap. fold d1 in Hgap. fold d2 in Hgap.
  pose proof (forward_ratio S K r t d S_pos K_pos) as Hfr.
  pose proof (exp_pos (- r * t)) as Hb. pose proof (exp_pos (- d * t)) as Ha.
  set (F := exp (ln (S / K) + (r - d) * t)) in *.
  assert (HF : 0 < F) by apply exp_pos.
  split.
  - pose proof (cdf_exchange erf c c_pos erf_deriv erf_lim d1 d2 H21) as H.
    rewrite Hgap in H. fold F in H.
    rewrite <- Hfr.
    apply (Rmult_le_compat_l (K * exp (- r * t))) in H; [| nra]. nra.
  - pose proof (cdf_exchange erf c c_pos erf_deriv erf_lim (- d2) (- d1)
                  ltac:(lra)) as H.
    replace ((- d2 * - d2 - - d1 * - d1) / 2)
      with (- ((d1 * d1 - d2 * d2) / 2)) in H by field.
    rewrite Hgap, exp_Ropp in H. fold F in H.
    rewrite <- Hfr.
    apply (Rmult_le_compat_l (F * (K * exp (- r * t)))) in H; [| nra].
    replace (F * (K * exp (- r * t)) * (normCdf erf (- d2) None None * / F))
      with (K * exp (- r * t) * normCdf erf (- d2) None None) in H
      by (field; lra).
    exact H.
Qed.





End PriceBounds.

(** The warrant is the call without dividend yield, over the conversion
    ratio: for every S, K, sigma, r, t and q. *)
Theorem warrant_as_call erf S K sigma r t (q : option R) :
  blackScholesWarrantCall erf S K sigma r t q
  = blackScholesCall erf S K sigma r t None / dflt 1 q.
Proof.
  cbv beta delta [blackScholesWarrantCall blackScholesCall] zeta.
  cbn [dflt].
  replace (r - 0 + sigma ^ 2 / 2) with (r + sigma ^ 2 / 2) by ring.
  replace (- 0 * t) with 0 by ring.
  rewrite exp_0, Rmult_1_r. reflexivity.
Qed.


(** ** How the prices move with the spot, the strike and the volatility *)

Section Sensitivities.

Variable erf : R -> R.
Variable c : R.
Hypothesis c_pos : 0 < c.
Hypothesis erf_deriv : gaussian_primitive erf c.
Hypothesis erf_lim : tends_to_one erf.

Lemma Phi_deriv x :
  derivable_pt_lim (Phi erf) x (c * sqrt 2 / 4 * exp (- (x * x / 2))).
Proof. apply (normCdf_deriv erf c erf_deriv). Qed.

Lemma Phi_nonneg x : 0 <= Phi erf x.
Proof. apply (normCdf_nonneg erf c c_pos erf_deriv erf_lim). Qed.

(** The derivative of a call body [A Phi(D1) - B Phi(D2)] along a parameter,
    where the densities balance. *)
Lemma call_body_deriv (A B D1 D2 : R -> R) s A' B' D1' D2' :
  derivable_pt_lim A s A' -> derivable_pt_lim B s B' ->
  derivable_pt_lim D1 s D1' -> derivable_pt_lim D2 s D2' ->
  A s * exp (- (D1 s * D1 s / 2)) = B s * exp (- (D2 s * D2 s / 2)) ->
  derivable_pt_lim (fun s => A s * Phi erf (D1 s) - B s * Phi erf (D2 s)) s
    (A' * Phi erf (D1 s) - B' * Phi erf (D2 s)
     + c * sqrt 2 / 4 * (A s * exp (- (D1 s * D1 s / 2))) * (D1' - D2')).
Proof.
  intros HA HB H1 H2 Hbal.
  pose proof Phi_deriv as HPhi.
  eapply dpl_eq.
  - apply (derivable_pt_lim_minus (fun s => A s * Phi erf (D1 s))
             (fun s => B s * Phi erf (D2 s))).
    + apply (derivable_pt_lim_mult A (fun s => Phi erf (D1 s))); [exact HA |].
      apply (derivable_pt_lim_comp D1 (Phi erf)); [exact H1 | apply HPhi].
    + apply (derivable_pt_lim_mult B (fun s => Phi erf (D2 s))); [exact HB |].
      apply (derivable_pt_lim_comp D2 (Phi erf)); [exact H2 | apply HPhi].
  - cbv beta.
    transitivity
      (A' * Phi erf (D1 s) - B' * Phi erf (D2 s)
       + c * sqrt 2 / 4
         * (A s * exp (- (D1 s * D1 s / 2)) * D1'
            - B s * exp (- (D2 s * D2 s / 2)) * D2')); [ring |].
    rewrite <- Hbal. ring.
Qed.

(** The same for a put body [B Phi(-D2) - A Phi(-D1)]. *)
Lemma put_body_deriv (A B D1 D2 : R -> R) s A' B' D1' D2' :
  derivable_pt_lim A s A' -> derivable_pt_lim B s B' ->
  derivable_pt_lim D1 s D1' -> derivable_pt_lim D2 s D2' ->
  A s * exp (- (D1 s * D1 s / 2)) = B s * exp (- (D2 s * D2 s / 2)) ->
  derivable_pt_lim
    (fun s => B s * Phi erf (- D2 s) - A s * Phi erf (- D1 s)) s
    (B' * Phi erf (- D2 s) - A' * Phi erf (- D1 s)
     + c * sqrt 2 / 4 * (A s * exp (- (D1 s * D1 s / 2))) * (D1' - D2')).
Proof.
  intros HA HB H1 H2 Hbal.
  pose proof Phi_deriv as HPhi.
  eapply dpl_eq.
  - apply (derivable_pt_lim_minus (fun s => B s * Phi erf (- D2 s))
             (fun s => A s * Phi erf (- D1 s))).
    + apply (derivable_pt_lim_mult B (fun s => Phi erf (- D2 s)));
        [exact HB |].
      apply (derivable_pt_lim_comp (fun s => - D2 s) (Phi erf));
        [apply (derivable_pt_lim_opp D2), H2 | apply HPhi].
    + apply (derivable_pt_lim_mult A (fun s => Phi erf (- D1 s)));
        [exact HA |].
      apply (derivable_pt_lim_comp (fun s => - D1 s) (Phi erf));
        [apply (derivable_pt_lim_opp D1), H1 | apply HPhi].
  - cbv beta.
    replace (- D2 s * - D2 s / 2) with (D2 s * D2 s / 2) by field.
    replace (- D1 s * - D1 s / 2) with (D1 s * D1 s / 2) by field.
    transitivity
      (B' * Phi erf (- D2 s) - A' * Phi erf (- D1 s)
       + c * sqrt 2 / 4
         * (A s * exp (- (D1 s * D1 s / 2)) * D1'
            - B s * exp (- (D2 s * D2 s / 2)) * D2')); [ring |].
    rewrite <- Hbal. ring.
Qed.


(** d1 along the spot. *)
Lemma d1_spot_deriv K sigma r t d s :
  0 < K -> 0 < sigma -> 0 < t -> 0 < s ->
  derivable_pt_lim
    (fun s => (ln (s / K) + (r - d + sigma ^ 2 / 2) * t) / (sigma * sqrt t))
    s (/ (s * (sigma * sqrt t))).
Proof.
  intros K_pos sigma_pos t_pos Hs.
  pose proof (sqrt_lt_R0 t t_pos) as Hq.
  assert (Hln : derivable_pt_lim (fun s => ln (s / K)) s (/ s)).
  { eapply dpl_eq.
    - apply (derivable_pt_lim_comp (fun s => s / K) ln).
      + dpl.
      + apply derivable_pt_lim_ln. apply Rdiv_lt_0_compat; lra.
    - field. repeat split; lra. }
  set (L := fun s => ln (s / K)) in Hln.
  apply (derivable_pt_lim_ext
           (fun s => (L s + (r - d + sigma ^ 2 / 2) * t) / (sigma * sqrt t))).
  { intros z. reflexivity. }
  eapply dpl_eq; [dpl; exact Hln |]. field. repeat split; lra.
Qed.

(** d1 along the strike. *)
Lemma d1_strike_deriv S sigma r t d k :
  0 < S -> 0 < sigma -> 0 < t -> 0 < k ->
  derivable_pt_lim
    (fun k => (ln (S / k) + (r - d + sigma ^ 2 / 2) * t) / (sigma * sqrt t))
    k (- / (k * (sigma * sqrt t))).
Proof.
  intros S_pos sigma_pos t_pos Hk.
  pose proof (sqrt_lt_R0 t t_pos) as Hq.
  assert (Hln : derivable_pt_lim (fun k => ln (S / k)) k (- / k)).
  { eapply dpl_eq.
    - apply (derivable_pt_lim_comp (fun k => S / k) ln).
      + dpl. lra.
      + apply derivable_pt_lim_ln. apply Rdiv_lt_0_compat; lra.
    - field. repeat split; lra. }
  set (L := fun k => ln (S / k)) in Hln.
  apply (derivable_pt_lim_ext
           (fun k => (L k + (r - d + sigma ^ 2 / 2) * t) / (sigma * sqrt t))).
  { intros z. reflexivity. }
  eapply dpl_eq; [dpl; exact Hln |]. field. repeat split; lra.
Qed.

(** d1 along the volatility has a derivative. *)
Lemma d1_volatility_deriv S K r t d v :
  0 < t -> 0 < v ->
  exists l,
    derivable_pt_lim
      (fun v => (ln (S / K) + (r - d + v ^ 2 / 2) * t) / (v * sqrt t)) v l.
Proof.
  intros t_pos Hv.
  pose proof (sqrt_lt_R0 t t_pos) as Hq.
  eexists.
  apply (derivable_pt_lim_ext
           (fun v => (ln (S / K) + (r - d + v * v / 2) * t) / (v * sqrt t))).
  { intros z. simpl. rewrite Rmult_1_r. reflexivity. }
  dpl. nra.
Qed.

(** A function with a derivative of constant sign on an interval is
    monotone there. *)
Lemma increasing_between f f' a b :
  a <= b ->
  (forall z, a <= z <= b -> derivable_pt_lim f z (f' z)) ->
  (forall z, a <= z <= b -> 0 <= f' z) ->
  f a <= f b.
Proof.
  intros [Hlt | ->] Hd Hs; [| lra].
  destruct (MVT_cor2 f f' a b Hlt Hd) as (z & Hz & Hz1).
  pose proof (Hs z ltac:(lra)). nra.
Qed.

Lemma decreasing_between f f' a b :
  a <= b ->
  (forall z, a <= z <= b -> derivable_pt_lim f z (f' z)) ->
  (forall z, a <= z <= b -> f' z <= 0) ->
  f b <= f a.
Proof.
  intros [Hlt | ->] Hd Hs; [| lra].
  destruct (MVT_cor2 f f' a b Hlt Hd) as (z & Hz & Hz1).
  pose proof (Hs z ltac:(lra)). nra.
Qed.





End Sensitivities.
(** ** Edge behaviour at the special values *)

Lemma add_NaN_r a : (a + NaN)%js = NaN.
Proof. destruct a; reflexivity. Qed.

Lemma sub_NaN_r a : (a - NaN)%js = NaN.
Proof. destruct a; reflexivity. Qed.

Lemma mul_NaN_r a : (a * NaN)%js = NaN.
Proof. destruct a; reflexivity. Qed.

Lemma div_NaN_r a : (a / NaN)%js = NaN.
Proof. destruct a; reflexivity. Qed.

Lemma add_NaN_l a : (NaN + a)%js = NaN.
Proof. reflexivity. Qed.

Lemma sub_NaN_l a : (NaN - a)%js = NaN.
Proof. reflexivity. Qed.

Lemma mul_NaN_l a : (NaN * a)%js = NaN.
Proof. reflexivity. Qed.

Lemma div_NaN_l a : (NaN / a)%js = NaN.
Proof. reflexivity. Qed.

Lemma neg_NaN : (- NaN)%js = NaN.
Proof. reflexivity. Qed.

Lemma Math_log_NaN : Math_log NaN = NaN.
Proof. reflexivity. Qed.

Lemma Math_sqrt_NaN : Math_sqrt NaN = NaN.
Proof. reflexivity. Qed.

Lemma Math_exp_NaN : Math_exp NaN = NaN.
Proof. reflexivity. Qed.

Lemma Math_pow_NaN n : Math_pow NaN (S n) = NaN.
Proof. reflexivity. Qed.

Lemma normCdf_of_NaN erf mu sigma : IEEE.normCdf erf NaN mu sigma = NaN.
Proof.
  cbv beta delta [IEEE.normCdf] zeta.
  rewrite sub_NaN_r, div_NaN_l. reflexivity.
Qed.

Ltac nan_rewrite :=
  repeat
    (progress rewrite ?add_NaN_r, ?sub_NaN_r, ?mul_NaN_r, ?div_NaN_r,
       ?add_NaN_l, ?sub_NaN_l, ?mul_NaN_l, ?div_NaN_l, ?neg_NaN,
       ?Math_log_NaN, ?Math_sqrt_NaN, ?Math_exp_NaN, ?Math_pow_NaN,
       ?normCdf_of_NaN).

Ltac nan_out :=
  cbv beta delta [IEEE.blackScholesCall IEEE.blackScholesPut
                    IEEE.blackScholesWarrantCall] zeta;
  cbn [dflt]; nan_rewrite; reflexivity.

(** A [NaN] argument makes the three prices [NaN], whatever the other
    arguments are. *)
Theorem NaN_propagates erf S K sigma r t x :
  S = NaN \/ K = NaN \/ sigma = NaN \/ r = NaN \/ t = NaN \/ x = NaN ->
  IEEE.blackScholesCall erf S K sigma r t (Some x) = NaN
  /\ IEEE.blackScholesPut erf S K sigma r t (Some x) = NaN
  /\ IEEE.blackScholesWarrantCall erf S K sigma r t (Some x) = NaN.
Proof.
  intros [-> | [-> | [-> | [-> | [-> | ->]]]]]; repeat split; nan_out.
Qed.



(** At expiry (t = 0) d1 is ln(S/K) over zero. *)
Lemma d1_at_expiry S K sigma r d :
  0 < S -> 0 < K ->
  ((Math_log (Fin S / Fin K)
    + (Fin r - Fin d + Math_pow (Fin sigma) 2 / Fin 2) * Fin 0)
   / (Fin sigma * Math_sqrt (Fin 0)))%js
  = by_sign (S - K) PInf NInf NaN.
Proof.
  intros HS HK.
  assert (HSK : 0 < S / K) by (apply Rdiv_lt_0_compat; lra).
  rewrite (div_Fin S K) by lra.
  rewrite (Math_log_Fin _ HSK), (Math_sqrt_Fin 0) by lra.
  rewrite Math_pow_Fin, (div_Fin _ 2) by lra.
  fin_arith. rewrite div_Fin_zero by (rewrite sqrt_0; ring).
  rewrite Rmult_0_r, Rplus_0_r.
  destruct (Rtotal_order S K) as [H | [H | H]].
  - rewrite !by_sign_neg; try reflexivity; try lra.
    rewrite <- ln_1. apply ln_increasing; [exact HSK |].
    apply (Rmult_lt_reg_r K); [lra |]. unfold Rdiv.
    rewrite Rmult_assoc, Rinv_l by lra. lra.
  - subst S. replace (K / K) with 1 by (field; lra).
    rewrite ln_1. replace (K - K) with 0 by ring. reflexivity.
  - rewrite !by_sign_pos; try reflexivity; try lra.
    rewrite <- ln_1. apply ln_increasing; [lra |].
    apply (Rmult_lt_reg_r K); [lra |]. unfold Rdiv.
    rewrite Rmult_assoc, Rinv_l by lra. lra.
Qed.





(** ** Instances

    Each property above that has a hypothesis, at a concrete input, with the
    real error function for [erf]. *)

Ltac erf_real_facts :=
  first [ exact erf_real_gaussian
        | exact erf_real_tends_to_one
        | exact erf_real_is_odd
        | apply Rinv_0_lt_compat, gauss_total_pos
        | cbn [dflt]; lra ].












Lemma NaN_propagates_witness :
  IEEE.blackScholesCall erf_real (Fin 100) (Fin 100) NaN (Fin 0.05) (Fin 1)
    (Some (Fin 0)) = NaN
  /\ IEEE.blackScholesPut erf_real (Fin 100) (Fin 100) NaN (Fin 0.05) (Fin 1)
       (Some (Fin 0)) = NaN
  /\ IEEE.blackScholesWarrantCall erf_real (Fin 100) (Fin 100) NaN (Fin 0.05)
       (Fin 1) (Some (Fin 0)) = NaN.
Proof.
  apply (NaN_propagates erf_real). right. right. left. reflexivity.
Defined.






